(** * Walking-accessibility core of the Besiktas 15-minute-city analysis

    Embedding of [src/analysis/src/spatial_analysis/network_analysis.py] and
    [src/analysis/src/spatial_analysis/accessibility_analysis.py].  Both
    modules hand the graph work to osmnx and networkx; the parts of those
    libraries that the two [calculate_accessibility] functions call
    ([nearest_nodes], [ego_graph], [project_graph], the walk-network builder)
    are embedded here from their documented behaviour.  Lengths, radii and
    coordinates (Python floats) are rationals [Q], so sums of lengths are
    exact; the rounding of networkx's float sums is modelled separately, over
    binary64 floats, where a statement depends on it. *)

From Stdlib Require Import List Bool Arith Lia QArith Lqa String.
From Stdlib Require Import PrimFloat.
Import ListNotations.
Open Scope Q_scope.

(** ** Data model: an osmnx MultiDiGraph *)

Record node := mk_node { nid : nat; node_x : Q; node_y : Q }.

(** A directed edge [u -> v] with its ['length'] attribute and the other
    OSM attributes, carried but never read by the analysis. *)
Record edge := mk_edge { eu : nat; ev : nat; elen : Q;
                         eattrs : list (string * string) }.

Record graph := mk_graph { gnodes : list node; gedges : list edge }.

Definition node_ids (g : graph) : list nat := map nid (gnodes g).

(** Python exceptions raised on the paths we embed. *)
Inductive exn :=
| NodeNotFound    (* networkx: source node not in G *)
| ValueError      (* nearest_nodes: non-finite coordinate or empty graph;
                     project_graph, plot_graph: a graph without edges *)
| FileNotFoundError (* savefig into a directory that does not exist *)
| DanglingRef.    (* a reference to no object; never raised for a live name *)

Inductive result (A : Type) := Ok (a : A) | Err (e : exn).
Arguments Ok {A} a.
Arguments Err {A} e.

(** ** networkx [single_source_dijkstra(G, n, cutoff=radius, weight='length')]

    networkx settles the source at distance 0 whatever the cutoff, and
    relaxes an edge [v -> u] only when [dist v + length <= cutoff].  For
    nonnegative lengths the settled set is the set of nodes whose shortest
    distance is at most the cutoff (and the source).  We compute the same set
    by rounds of cutoff-bounded relaxation, one round per node of the graph,
    which is enough for shortest walks over nonnegative lengths.

    Two differences from networkx are kept explicit.  Distances here are
    exact rational sums, where networkx adds Python floats in search order
    ([fsssp] below redoes the search in binary64 arithmetic); and networkx
    may raise [ValueError("Contradictory paths found")] on a negative length,
    which this model does not: it embeds the search for nonnegative lengths,
    the only ones an OSM walk network has ([nonneg_lengths]). *)

Definition omin (a b : option Q) : option Q :=
  match a, b with
  | Some x, Some y => if Qle_bool x y then Some x else Some y
  | Some x, None => Some x
  | None, b => b
  end.

Definition relax_edge (cutoff : Q) (dist : nat -> option Q) (v : nat)
    (acc : option Q) (e : edge) : option Q :=
  if Nat.eqb (ev e) v then
    match dist (eu e) with
    | Some du => if Qle_bool (du + elen e) cutoff
                 then omin acc (Some (du + elen e)) else acc
    | None => acc
    end
  else acc.

Definition relax (g : graph) (cutoff : Q) (dist : nat -> option Q) (v : nat)
    : option Q :=
  fold_left (relax_edge cutoff dist v) (gedges g) (dist v).

Fixpoint sssp (g : graph) (source : nat) (cutoff : Q) (rounds : nat)
    : nat -> option Q :=
  match rounds with
  | O => fun v => if Nat.eqb v source then Some 0 else None
  | S k => relax g cutoff (sssp g source cutoff k)
  end.

Definition single_source_dijkstra (g : graph) (source : nat) (cutoff : Q)
    : nat -> option Q :=
  sssp g source cutoff (List.length (gnodes g)).

(** ** networkx [ego_graph(G, n, radius, distance='length')]

    [G.subgraph(sp).copy()]: the subgraph induced by the settled nodes, in
    G's node and edge order; [NodeNotFound] when [n] is not in G. *)

Definition is_some {A} (o : option A) : bool :=
  match o with Some _ => true | None => false end.

Definition induced (g : graph) (keep : list node) : graph :=
  let ids := map nid keep in
  mk_graph keep
    (filter (fun e => existsb (Nat.eqb (eu e)) ids && existsb (Nat.eqb (ev e)) ids)
            (gedges g)).

Definition ego_graph (g : graph) (n : nat) (radius : Q) : result graph :=
  if existsb (Nat.eqb n) (node_ids g) then
    let sp := single_source_dijkstra g n radius in
    Ok (induced g (filter (fun nd => is_some (sp (nid nd))) (gnodes g)))
  else Err NodeNotFound.

(** ** The same search over binary64 floats

    networkx accumulates [dist[v] + length] as Python floats.  [fsssp] is the
    relaxation above with lengths, cutoff and sums as IEEE-754 binary64
    numbers (Rocq's primitive floats).  On a path graph each node has one
    simple path from the source, and both searches add its lengths in the
    same order, from the source outwards, so they compute the same float
    sums there. *)

Record fedge := mk_fedge { feu : nat; fev : nat; felen : PrimFloat.float }.

Definition fomin (a b : option PrimFloat.float) : option PrimFloat.float :=
  match a, b with
  | Some x, Some y => if PrimFloat.leb x y then Some x else Some y
  | Some x, None => Some x
  | None, b => b
  end.

Definition frelax_edge (cutoff : PrimFloat.float) (dist : nat -> option PrimFloat.float)
    (v : nat) (acc : option PrimFloat.float) (e : fedge) : option PrimFloat.float :=
  if Nat.eqb (fev e) v then
    match dist (feu e) with
    | Some du => if PrimFloat.leb (PrimFloat.add du (felen e)) cutoff
                 then fomin acc (Some (PrimFloat.add du (felen e))) else acc
    | None => acc
    end
  else acc.

Fixpoint fsssp (es : list fedge) (source : nat) (cutoff : PrimFloat.float) (rounds : nat)
    : nat -> option PrimFloat.float :=
  match rounds with
  | O => fun v => if Nat.eqb v source then Some 0%float else None
  | S k => fun v => fold_left (frelax_edge cutoff (fsssp es source cutoff k) v) es
                              (fsssp es source cutoff k v)
  end.

(** The node ids of [ego_graph] over float lengths (source assumed present). *)
Definition fego_nodes (ns : list nat) (es : list fedge) (n : nat) (radius : PrimFloat.float)
    : list nat :=
  filter (fun v => is_some (fsssp es n radius (List.length ns) v)) ns.

(** A walk network over float lengths: each way in both directions. *)
Definition fgraph_from_ways (ws : list (nat * nat * PrimFloat.float)) : list fedge :=
  flat_map (fun w => let '(u, v, l) := w in [mk_fedge u v l; mk_fedge v u l]) ws.

(** ** osmnx walk network ([graph_from_place(..., network_type='walk')])

    Walk networks are bidirectional: every way segment [u - v] becomes the
    two edges [u -> v] and [v -> u] with the same length and attributes. *)

Record way := mk_way { wu : nat; wv : nat; wlen : Q;
                       wattrs : list (string * string) }.

Definition way_edges (w : way) : list edge :=
  [mk_edge (wu w) (wv w) (wlen w) (wattrs w);
   mk_edge (wv w) (wu w) (wlen w) (wattrs w)].

Definition graph_from_ways (ns : list node) (ws : list way) : graph :=
  mk_graph ns (flat_map way_edges ws).

(** ** osmnx [nearest_nodes(G, X, Y)]

    osmnx raises [ValueError] when [X] or [Y] is null (NaN) and when the
    graph has no nodes; otherwise it queries a nearest-neighbour tree built
    over the node coordinates.  On an unprojected graph (network_analysis)
    the tree is scikit-learn's BallTree, whose input check also raises
    [ValueError] on an infinite coordinate.  The query returns a node of
    minimum distance; which of several equidistant nodes the tree returns
    depends on its layout, and this model keeps the first one in node order.

    The distance is the planar (squared Euclidean) one of the node
    coordinates: that is what osmnx uses, through a scipy k-d tree, on a
    projected graph, as in accessibility_analysis, which only ever queries
    the finite [center_point].  On an unprojected graph osmnx measures the
    haversine distance instead, which this model does not compute; what the
    statements about network_analysis use of the lookup is when it fails
    and that it returns a node of the graph. *)

Inductive pyfloat := Num (q : Q) | NaN | PosInf | NegInf.

Definition is_finite (f : pyfloat) : bool :=
  match f with Num _ => true | _ => false end.

Definition sqdist (nd : node) (x y : Q) : Q :=
  (node_x nd - x) * (node_x nd - x) + (node_y nd - y) * (node_y nd - y).

Definition closer (x y : Q) (best cand : node) : node :=
  if Qle_bool (sqdist best x y) (sqdist cand x y) then best else cand.

Definition nearest_nodes (g : graph) (X Y : pyfloat) : result nat :=
  match X, Y with
  | Num x, Num y =>
      match gnodes g with
      | [] => Err ValueError
      | nd :: rest => Ok (nid (fold_left (closer x y) rest nd))
      end
  | _, _ => Err ValueError
  end.

(** ** The Python object store

    [G] is one graph object shared by every query of a batch; [ego_graph]
    returns [G.subgraph(sp).copy()], a new object.  We make the store
    explicit: a heap of graph objects, an error-and-state monad over it. *)

Definition loc := nat.

Record heap := mk_heap { objs : list (loc * graph); next_loc : loc }.

Fixpoint lookup_obj (l : loc) (os : list (loc * graph)) : option graph :=
  match os with
  | [] => None
  | (l', g) :: os' => if Nat.eqb l l' then Some g else lookup_obj l os'
  end.

Definition hget (h : heap) (l : loc) : option graph := lookup_obj l (objs h).

(** Every object lives below the allocation pointer. *)
Definition heap_wf (h : heap) : Prop :=
  forall l g, In (l, g) (objs h) -> (l < next_loc h)%nat.

Definition M (A : Type) : Type := heap -> result A * heap.

Definition ret {A} (a : A) : M A := fun h => (Ok a, h).

Definition bind {A B} (m : M A) (f : A -> M B) : M B :=
  fun h => match m h with
           | (Ok a, h') => f a h'
           | (Err e, h') => (Err e, h')
           end.

Notation "x <- m ;; k" := (bind m (fun x => k))
  (at level 61, m at next level, right associativity).

Definition raise_res {A} (r : result A) : M A := fun h => (r, h).

Definition deref (l : loc) : M graph :=
  fun h => match hget h l with
           | Some g => (Ok g, h)
           | None => (Err DanglingRef, h)
           end.

Definition alloc (g : graph) : M loc :=
  fun h => (Ok (next_loc h), mk_heap ((next_loc h, g) :: objs h) (S (next_loc h))).

(** [ox.distance.nearest_nodes(G, X, Y)] on the object [G]. *)
Definition nearest_nodes_op (G : loc) (X Y : pyfloat) : M nat :=
  g <- deref G;; raise_res (nearest_nodes g X Y).

(** [nx.ego_graph(G, node, radius=r, distance='length')]: a fresh copy. *)
Definition ego_graph_op (G : loc) (n : nat) (radius : Q) : M loc :=
  g <- deref G;; sub <- raise_res (ego_graph g n radius);; alloc sub.

(** Python dict assignment [d[k] = v]: an existing key keeps its place. *)
Fixpoint dict_set (d : list (nat * loc)) (k : nat) (v : loc) : list (nat * loc) :=
  match d with
  | [] => [(k, v)]
  | (k', v') :: d' => if Nat.eqb k k' then (k', v) :: d' else (k', v') :: dict_set d' k v
  end.

(** ** [network_analysis.calculate_accessibility(G, points_of_interest)] *)

Module NetworkAnalysis.

(** A POI is a [(latitude, longitude)] tuple. *)
Definition poi : Type := (pyfloat * pyfloat)%type.

(** [for poi in points_of_interest: node = ox.distance.nearest_nodes(G,
    poi[1], poi[0]); pois_nodes.append(node)] *)
Fixpoint convert_pois (G : loc) (pois : list poi) (pois_nodes : list nat)
    : M (list nat) :=
  match pois with
  | [] => ret pois_nodes
  | p :: rest =>
      node <- nearest_nodes_op G (snd p) (fst p);;
      convert_pois G rest (pois_nodes ++ [node])
  end.

(** [for node in pois_nodes: subgraph = nx.ego_graph(G, node, radius=1200,
    distance='length'); service_areas[node] = subgraph] *)
Fixpoint service_area_loop (G : loc) (pois_nodes : list nat)
    (service_areas : list (nat * loc)) : M (list (nat * loc)) :=
  match pois_nodes with
  | [] => ret service_areas
  | node :: rest =>
      subgraph <- ego_graph_op G node 1200;;
      service_area_loop G rest (dict_set service_areas node subgraph)
  end.

Definition calculate_accessibility (G : loc) (points_of_interest : list poi)
    : M (list (nat * loc)) :=
  pois_nodes <- convert_pois G points_of_interest [];;
  service_area_loop G pois_nodes [].

End NetworkAnalysis.

(** ** [accessibility_analysis.calculate_accessibility()]

    The function downloads the Besiktas walk network itself
    ([ox.graph_from_place]) and projects it to UTM ([ox.project_graph]); the
    downloaded graph and the projection are the inputs of this embedding.
    [project_graph] moves the node coordinates and keeps the edges and their
    lengths; osmnx builds the graph's node and edge GeoDataFrames to do so
    and raises [ValueError] when the graph has no node or no edge.
    [ox.plot_graph(subgraph, ...)] raises [ValueError] in the same way when
    the subgraph has no edge, and [plt.savefig('outputs/maps/...')] raises
    [FileNotFoundError] unless the directory [outputs/maps] exists, which
    the function does not create: whether it exists is a further input.
    The other plotting calls only draw. *)

Module AccessibilityAnalysis.

Definition project_graph (proj : Q -> Q -> Q * Q) (g : graph) : graph :=
  mk_graph
    (map (fun nd => let p := proj (node_x nd) (node_y nd) in
                    mk_node (nid nd) (fst p) (snd p)) (gnodes g))
    (gedges g).

(** [ox.project_graph(graph)] *)
Definition project_graph_op (proj : Q -> Q -> Q * Q) (g : graph) : result graph :=
  match gnodes g, gedges g with
  | [], _ => Err ValueError
  | _, [] => Err ValueError
  | _, _ => Ok (project_graph proj g)
  end.

(** [center_point = Point(29.007149, 41.041224)] *)
Definition center_x : Q := 29.007149.
Definition center_y : Q := 41.041224.

Definition walking_speed : Q := 5.
Definition max_distance : Q := walking_speed * 0.25.

Record summary := mk_summary {
  area_covered_km2 : option Q;
  nodes_in_range : nat;
  edges_in_range : nat }.

Definition calculate_accessibility (proj : Q -> Q -> Q * Q) (graph0 : graph)
    (maps_dir_exists : bool) : result summary :=
  match project_graph_op proj graph0 with
  | Err e => Err e
  | Ok G_proj =>
  match nearest_nodes G_proj (Num center_x) (Num center_y) with
  | Err e => Err e
  | Ok center_node =>
      match ego_graph G_proj center_node (max_distance * 1000) with
      | Err e => Err e
      | Ok subgraph =>
          (* ox.plot_graph(subgraph, ...) *)
          match gedges subgraph with
          | [] => Err ValueError
          | _ =>
              (* plt.savefig('outputs/maps/walking_accessibility.png') *)
              if maps_dir_exists then
                Ok (mk_summary None (List.length (gnodes subgraph))
                                    (List.length (gedges subgraph)))
              else Err FileNotFoundError
          end
      end
  end
  end.

End AccessibilityAnalysis.

(** ** Concrete graphs *)

(** The chain A-B-C-D (ids 1..4) with way lengths 100, 100, 100. *)
Definition chain : graph :=
  graph_from_ways [mk_node 1 0 0; mk_node 2 100 0; mk_node 3 200 0; mk_node 4 300 0]
    [mk_way 1 2 100 []; mk_way 2 3 100 []; mk_way 3 4 100 []].

(** A single node with a loop way: a closed street with one junction,
    which osmnx simplifies to a self-loop. *)
Definition loop_graph : graph :=
  graph_from_ways [mk_node 1 0 0] [mk_way 1 1 80 []].

(** A store holding the chain as the object [G] (location 0). *)
Definition chain_heap : heap := mk_heap [(0%nat, chain)] 1%nat.

(** A path of ways 1 - 2 - 3 with lengths 600 and 625: node 3 lies at
    walking distance 1225 from node 1. *)
Definition line_1225 : graph :=
  graph_from_ways [mk_node 1 0 0; mk_node 2 600 0; mk_node 3 1225 0]
    [mk_way 1 2 600 []; mk_way 2 3 625 []].

(** The path 1 - 2 - 3 - 4 of ways with float lengths 104.631, 329.73 and
    765.639 (each literal read as the nearest binary64 number, as Python
    reads it); their exact sum is 1200. *)
#[warnings="-inexact-float"]
Definition float_path : list fedge :=
  fgraph_from_ways [(1%nat, 2%nat, 104.631%float); (2%nat, 3%nat, 329.73%float);
                    (3%nat, 4%nat, 765.639%float)].

(** POIs as [(latitude, longitude)]: two points next to node 1 of the
    chain, and a valid point followed by one with a null latitude. *)
Definition two_pois : list NetworkAnalysis.poi := [(Num 0, Num 1); (Num 0, Num 2)].
Definition pois_with_null : list NetworkAnalysis.poi := [(Num 0, Num 1); (NaN, Num 2)].

(** ** Walks within a cutoff

    [walk g b n v k d]: a walk of [k] edges from [n] to [v] of length [d]
    every prefix of which is within the cutoff [b], as the relaxation
    requires. *)

Inductive walk (g : graph) (b : Q) (n : nat) : nat -> nat -> Q -> Prop :=
| walk_here d : d == 0 -> walk g b n n O d
| walk_step u k du e d :
    walk g b n u k du -> In e (gedges g) -> eu e = u ->
    d == du + elen e -> d <= b -> walk g b n (ev e) (S k) d.

(** [zwalk g n v k]: a walk of [k] zero-length edges from [n] to [v]. *)
Inductive zwalk (g : graph) (n : nat) : nat -> nat -> Prop :=
| zwalk_here : zwalk g n n O
| zwalk_step u k e :
    zwalk g n u k -> In e (gedges g) -> eu e = u -> elen e == 0 -> zwalk g n (ev e) (S k).

Definition nonneg_lengths (g : graph) : Prop :=
  forall e, In e (gedges g) -> 0 <= elen e.

(** Every edge has its reverse, as in a walk network. *)
Definition symmetric_edges (g : graph) : Prop :=
  forall e, In e (gedges g) ->
    exists e', In e' (gedges g) /\ eu e' = ev e /\ ev e' = eu e /\ elen e' == elen e.

(** ** Lemmas on the relaxation *)

Lemma omin_le_l x o : exists y, omin (Some x) o = Some y /\ y <= x.
Proof.
  destruct o as [z|]; simpl.
  - destruct (Qle_bool x z) eqn:E.
    + exists x; split; [reflexivity | apply Qle_refl].
    + exists z; split; [reflexivity|].
      assert (~ x <= z) by (rewrite <- Qle_bool_iff; congruence). lra.
  - exists x; split; [reflexivity | apply Qle_refl].
Qed.

Lemma omin_le_r o x : exists y, omin o (Some x) = Some y /\ y <= x.
Proof.
  destruct o as [z|]; simpl.
  - destruct (Qle_bool z x) eqn:E.
    + exists z; split; [reflexivity | now apply Qle_bool_iff].
    + exists x; split; [reflexivity | apply Qle_refl].
  - exists x; split; [reflexivity | apply Qle_refl].
Qed.

Lemma omin_cases a b y : omin a b = Some y -> a = Some y \/ b = Some y.
Proof.
  destruct a as [x|], b as [z|]; simpl; intros H; auto.
  destruct (Qle_bool x z); auto.
Qed.

Section Relax.
Variables (b : Q) (dist : nat -> option Q) (v : nat).

Lemma fold_relax_sound es acc y :
  fold_left (relax_edge b dist v) es acc = Some y ->
  acc = Some y \/
  exists e du, In e es /\ ev e = v /\ dist (eu e) = Some du /\
               y = du + elen e /\ du + elen e <= b.
Proof.
  revert acc; induction es as [|e es IH]; simpl; intros acc H; auto.
  destruct (IH _ H) as [Hacc | (e' & du & Hin & ?)];
    [| right; exists e', du; tauto].
  unfold relax_edge in Hacc.
  destruct (Nat.eqb_spec (ev e) v); auto.
  destruct (dist (eu e)) as [du|] eqn:Hd; auto.
  destruct (Qle_bool (du + elen e) b) eqn:Hle; auto.
  destruct (omin_cases _ _ _ Hacc) as [|Hs]; auto.
  right; exists e, du; inversion Hs; subst.
  repeat split; auto. now apply Qle_bool_iff.
Qed.

Lemma fold_relax_mono es x :
  exists y, fold_left (relax_edge b dist v) es (Some x) = Some y /\ y <= x.
Proof.
  revert x; induction es as [|e es IH]; simpl; intros x.
  - exists x; split; [reflexivity | apply Qle_refl].
  - unfold relax_edge at 2.
    destruct (Nat.eqb (ev e) v); [destruct (dist (eu e)) as [du|];
      [destruct (Qle_bool (du + elen e) b)|]|].
    all: try (destruct (IH x) as (y & Hy & Hle); exists y; split; assumption).
    destruct (omin_le_l x (Some (du + elen e))) as (z & Hz & Hzx).
    rewrite Hz. destruct (IH z) as (y & Hy & Hle).
    exists y; split; [assumption | lra].
Qed.

Lemma fold_relax_edge es acc e du :
  In e es -> ev e = v -> dist (eu e) = Some du -> du + elen e <= b ->
  exists y, fold_left (relax_edge b dist v) es acc = Some y /\ y <= du + elen e.
Proof.
  revert acc; induction es as [|e0 es IH]; simpl; intros acc Hin Hv Hd Hb;
    [contradiction|].
  destruct Hin as [-> | Hin]; [|now apply IH].
  unfold relax_edge at 2. rewrite Hv, Nat.eqb_refl, Hd.
  apply Qle_bool_iff in Hb. rewrite Hb.
  destruct (omin_le_r acc (du + elen e)) as (z & Hz & Hzx). rewrite Hz.
  destruct (fold_relax_mono es z) as (y & Hy & Hle).
  exists y; split; [assumption | lra].
Qed.

End Relax.

(** ** The relaxation rounds compute the walks within the cutoff *)

Section Rounds.
Variables (g : graph) (n : nat) (b : Q).

Lemma walk_proper v k d d' : walk g b n v k d -> d == d' -> walk g b n v k d'.
Proof.
  intros H Hq; inversion H; subst.
  - apply walk_here; lra.
  - eapply walk_step; eauto; lra.
Qed.

Lemma sssp_sound k v y :
  sssp g n b k v = Some y -> exists k', (k' <= k)%nat /\ walk g b n v k' y.
Proof.
  revert v y; induction k as [|k IH]; simpl; intros v y H.
  - destruct (Nat.eqb_spec v n); [|discriminate].
    inversion H; subst. exists O; split; [lia | apply walk_here; reflexivity].
  - unfold relax in H.
    destruct (fold_relax_sound _ _ _ _ _ _ H) as [Hy | (e & du & Hin & Hv & Hd & -> & Hle)].
    + destruct (IH _ _ Hy) as (k' & ? & ?). exists k'; split; [lia | assumption].
    + destruct (IH _ _ Hd) as (k' & ? & Hw). exists (S k'); split; [lia|].
      subst v. eapply walk_step; eauto; reflexivity.
Qed.

Lemma sssp_round_mono k v x :
  sssp g n b k v = Some x -> exists y, sssp g n b (S k) v = Some y /\ y <= x.
Proof.
  intros H; simpl; unfold relax; rewrite H. apply fold_relax_mono.
Qed.

Lemma sssp_rounds_mono k k2 v x :
  (k <= k2)%nat -> sssp g n b k v = Some x ->
  exists y, sssp g n b k2 v = Some y /\ y <= x.
Proof.
  intros Hk; induction Hk as [|k2 Hk IH]; intros H.
  - exists x; split; [assumption | apply Qle_refl].
  - destruct (IH H) as (y & Hy & Hyx).
    destruct (sssp_round_mono _ _ _ Hy) as (z & Hz & Hzy).
    exists z; split; [assumption | lra].
Qed.

Lemma sssp_complete v k' d k :
  walk g b n v k' d -> (k' <= k)%nat ->
  exists y, sssp g n b k v = Some y /\ y <= d.
Proof.
  intros Hw; revert k; induction Hw as [d Hd | u k0 du e d Hw IH Hin Hu Hd Hb]; intros k Hk.
  - destruct (sssp_rounds_mono O k n 0) as (y & Hy & Hle); [lia | simpl; now rewrite Nat.eqb_refl |].
    exists y; split; [assumption | lra].
  - destruct k as [|k]; [lia|].
    destruct (IH k) as (y & Hy & Hle); [lia|].
    simpl; unfold relax.
    destruct (fold_relax_edge b (sssp g n b k) (ev e) (gedges g)
                (sssp g n b k (ev e)) e y) as (z & Hz & Hzle);
      [assumption | reflexivity | rewrite Hu; assumption | lra |].
    exists z; split; [assumption | lra].
Qed.

(** The nodes settled by [single_source_dijkstra] are exactly the ends of
    the walks within the cutoff. *)
Lemma settled_iff v :
  is_some (single_source_dijkstra g n b v) = true <->
  exists k d, (k <= List.length (gnodes g))%nat /\ walk g b n v k d.
Proof.
  unfold single_source_dijkstra; split.
  - destruct (sssp g n b _ v) as [y|] eqn:H; [|discriminate]; intros _.
    destruct (sssp_sound _ _ _ H) as (k & ? & ?). exists k, y; auto.
  - intros (k & d & Hk & Hw).
    destruct (sssp_complete _ _ _ _ Hw Hk) as (y & -> & _); reflexivity.
Qed.

End Rounds.

Lemma in_node_ids_filter (p : node -> bool) ns v :
  In v (map nid (filter p ns)) <-> exists nd, In nd ns /\ p nd = true /\ nid nd = v.
Proof.
  rewrite in_map_iff; split.
  - intros (nd & <- & Hin). apply filter_In in Hin. exists nd; tauto.
  - intros (nd & Hin & Hp & <-). exists nd; split; [reflexivity|]. now apply filter_In.
Qed.

Lemma existsb_eqb_In v l : existsb (Nat.eqb v) l = true <-> In v l.
Proof.
  rewrite existsb_exists; split.
  - intros (x & Hx & E). apply Nat.eqb_eq in E; subst; assumption.
  - intros H; exists v; split; [assumption | apply Nat.eqb_refl].
Qed.

(** The result of [ego_graph]: its nodes are the nodes of [g] reached by a
    walk within the radius, its edges the edges of [g] between two of them. *)
Lemma ego_graph_ok g n b r :
  ego_graph g n b = Ok r ->
  In n (node_ids g) /\
  (forall v, In v (node_ids r) <->
     In v (node_ids g) /\ exists k d, (k <= List.length (gnodes g))%nat /\ walk g b n v k d) /\
  (forall e, In e (gedges r) <->
     In e (gedges g) /\ In (eu e) (node_ids r) /\ In (ev e) (node_ids r)).
Proof.
  unfold ego_graph. destruct (existsb (Nat.eqb n) (node_ids g)) eqn:Hn; [|discriminate].
  intros H; inversion H; subst r; clear H.
  apply existsb_eqb_In in Hn. split; [assumption|]. split.
  - intros v; unfold induced, node_ids; simpl.
    rewrite in_node_ids_filter, in_map_iff, <- settled_iff; split.
    + intros (nd & Hin & Hs & <-). split; [exists nd; auto | assumption].
    + intros ((nd & <- & Hin) & Hs). exists nd; auto.
  - intros e; unfold induced, node_ids; simpl.
    rewrite filter_In, andb_true_iff, !existsb_eqb_In. tauto.
Qed.

(** ** Walk lemmas *)

Lemma walk_cutoff_mono g n b1 b2 v k d :
  b1 <= b2 -> walk g b1 n v k d -> walk g b2 n v k d.
Proof.
  intros Hb Hw; induction Hw.
  - now apply walk_here.
  - eapply walk_step; eauto; lra.
Qed.

Lemma walk_nonneg g b n v k d :
  nonneg_lengths g -> walk g b n v k d -> 0 <= d.
Proof.
  intros Hnn Hw; induction Hw as [d Hd | u k du e d Hw IH Hin Hu Hd Hb]; [lra|].
  pose proof (Hnn e Hin); lra.
Qed.

(** A walk can be extended at its start by one edge. *)
Lemma walk_cons g b e z k d :
  nonneg_lengths g -> In e (gedges g) -> walk g b (ev e) z k d ->
  elen e + d <= b -> walk g b (eu e) z (S k) (elen e + d).
Proof.
  intros Hnn He Hw; induction Hw as [d Hd | u k du e2 d Hw IH Hin Hu Hd Hb]; intros Hle.
  - eapply walk_step; [apply walk_here; reflexivity | eassumption | reflexivity | lra | lra].
  - pose proof (Hnn e2 Hin).
    eapply walk_step; [apply IH; lra | eassumption | assumption | lra | lra].
Qed.

Lemma walk_reverse g b n v k d :
  nonneg_lengths g -> symmetric_edges g -> walk g b n v k d -> walk g b v n k d.
Proof.
  intros Hnn Hsym Hw; induction Hw as [d Hd | u k du e d Hw IH Hin Hu Hd Hb].
  - now apply walk_here.
  - destruct (Hsym e Hin) as (e' & Hin' & Hu' & Hv' & Hl').
    assert (Hw' : walk g b (ev e') n k du) by (rewrite Hv', Hu; exact IH).
    apply (walk_proper _ _ _ _ _ (elen e' + du)).
    + rewrite <- Hu'. apply walk_cons; [assumption | assumption | assumption |].
      pose proof (Hnn e Hin); lra.
    + lra.
Qed.

(** With nonnegative lengths, the walks within cutoff 0 are the walks of
    zero-length edges. *)
Lemma walk_zero g b n v k :
  nonneg_lengths g -> b == 0 ->
  (forall d, walk g b n v k d -> zwalk g n v k) /\ (zwalk g n v k -> walk g b n v k 0).
Proof.
  intros Hnn Hb. split.
  - intros d Hw; induction Hw as [d Hd | u k du e d Hw IH Hin Hu Hd Hle].
    + apply zwalk_here.
    + pose proof (walk_nonneg _ _ _ _ _ _ Hnn Hw). pose proof (Hnn e Hin).
      eapply zwalk_step; [exact IH | exact Hin | exact Hu | lra].
  - intros Hz; induction Hz as [| u k e Hz IH Hin Hu He].
    + apply walk_here; reflexivity.
    + eapply walk_step; [exact IH | exact Hin | exact Hu | lra | lra].
Qed.

(** From a node with no outgoing edge no walk leaves. *)
Lemma walk_isolated g b n v k d :
  (forall e, In e (gedges g) -> eu e <> n) -> walk g b n v k d -> v = n.
Proof.
  intros Hiso Hw; induction Hw as [| u k du e d Hw IH Hin Hu]; [reflexivity|].
  exfalso; apply (Hiso e Hin); congruence.
Qed.

(** When every edge is longer than the cutoff no walk leaves the source. *)
Lemma walk_stuck g b n v k d :
  nonneg_lengths g -> (forall e, In e (gedges g) -> b < elen e) ->
  walk g b n v k d -> v = n.
Proof.
  intros Hnn Hlong Hw; inversion Hw as [| u k' du e d' Hw' Hin Hu Hd Hb]; [reflexivity|].
  pose proof (walk_nonneg _ _ _ _ _ _ Hnn Hw'). pose proof (Hlong e Hin). lra.
Qed.

Lemma graph_from_ways_symmetric ns ws : symmetric_edges (graph_from_ways ns ws).
Proof.
  intros e He; simpl in *. apply in_flat_map in He as (w & Hw & He).
  simpl in He; destruct He as [<- | [<- | []]].
  - exists (mk_edge (wv w) (wu w) (wlen w) (wattrs w)); split.
    + apply in_flat_map; exists w; simpl; auto.
    + simpl; repeat split; reflexivity.
  - exists (mk_edge (wu w) (wv w) (wlen w) (wattrs w)); split.
    + apply in_flat_map; exists w; simpl; auto.
    + simpl; repeat split; reflexivity.
Qed.

Lemma graph_from_ways_nonneg ns ws :
  (forall w, In w ws -> 0 <= wlen w) -> nonneg_lengths (graph_from_ways ns ws).
Proof.
  intros Hw e He; simpl in He. apply in_flat_map in He as (w & Hin & He).
  simpl in He; destruct He as [<- | [<- | []]]; simpl; auto.
Qed.

(** The source is always part of its own ego graph. *)
Lemma ego_graph_source g n b r :
  ego_graph g n b = Ok r -> In n (node_ids r).
Proof.
  intros H. destruct (ego_graph_ok _ _ _ _ H) as (Hn & Hnodes & _).
  apply Hnodes; split; [assumption|].
  exists O, 0; split; [lia | apply walk_here; reflexivity].
Qed.

Lemma no_member_nil {A} (l : list A) : (forall x, ~ In x l) -> l = [].
Proof. destruct l as [|x l]; [reflexivity|]. intros H; exfalso; apply (H x); left; reflexivity. Qed.

(** ** Sample queries *)

Definition ego_ids (r : result graph) : option (list nat) :=
  match r with Ok s => Some (node_ids s) | Err _ => None end.

Example ego_chain_150 : ego_ids (ego_graph chain 1 150) = Some [1%nat; 2%nat].
Proof. vm_compute. reflexivity. Qed.

Example ego_chain_300 : ego_ids (ego_graph chain 1 300) = Some [1%nat; 2%nat; 3%nat; 4%nat].
Proof. vm_compute. reflexivity. Qed.

Example ego_chain_neg : ego_ids (ego_graph chain 2 (-1)) = Some [2%nat].
Proof. vm_compute. reflexivity. Qed.


(** ** C1: boundary edges *)

(** C1 (counterexample): on the chain A-B-C-D with lengths 100, the query
    from A with budget 150 returns nodes A, B and the two directions of
    edge A-B only; the edge B-C appears in no form, and no partial length
    of 50 is reported anywhere in the result. *)
Lemma C1_chain_no_boundary_edge :
  ego_graph chain 1 150 =
    Ok (mk_graph [mk_node 1 0 0; mk_node 2 100 0]
                 [mk_edge 1 2 100 []; mk_edge 2 1 100 []]) /\
  forall r, ego_graph chain 1 150 = Ok r -> ~ In (mk_edge 2 3 100 []) (gedges r).
Proof.
  split; [vm_compute; reflexivity|].
  intros r H; vm_compute in H; inversion H; subst r; simpl.
  intros [E | [E | []]]; discriminate E.
Qed.

(** C1 (amended): the result of the reachability query is the subgraph
    induced by the nodes reached within the budget: it holds exactly the
    edges of the graph whose two endpoints are reached, so an edge with
    exactly one reached endpoint is left out and no partial length is
    computed.  On the chain, the query from A with budget 150 gives nodes
    A, B and edge A-B in both directions. *)
Theorem C1_ego_graph_is_induced g n b r :
  ego_graph g n b = Ok r ->
  (forall v, In v (node_ids r) <->
     In v (node_ids g) /\ exists k d, (k <= List.length (gnodes g))%nat /\ walk g b n v k d) /\
  (forall e, In e (gedges r) <->
     In e (gedges g) /\ In (eu e) (node_ids r) /\ In (ev e) (node_ids r)) /\
  (forall e, In e (gedges g) -> In (eu e) (node_ids r) -> ~ In (ev e) (node_ids r) ->
     ~ In e (gedges r)) /\
  ego_graph chain 1 150 =
    Ok (mk_graph [mk_node 1 0 0; mk_node 2 100 0]
                 [mk_edge 1 2 100 []; mk_edge 2 1 100 []]).
Proof.
  intros H. destruct (ego_graph_ok _ _ _ _ H) as (_ & Hn & He).
  split; [exact Hn|]. split; [exact He|]. split; [|vm_compute; reflexivity].
  intros e _ _ Hout Hin. apply He in Hin. tauto.
Qed.

Lemma C1_ego_graph_is_induced_witness :
  exists r, ego_graph chain 1 150 = Ok r /\
  forall e, In e (gedges chain) -> In (eu e) (node_ids r) -> ~ In (ev e) (node_ids r) ->
    ~ In e (gedges r).
Proof.
  exists (mk_graph [mk_node 1 0 0; mk_node 2 100 0]
                   [mk_edge 1 2 100 []; mk_edge 2 1 100 []]).
  split; [vm_compute; reflexivity|].
  exact (proj1 (proj2 (proj2 (C1_ego_graph_is_induced chain 1 150 _
           ltac:(vm_compute; reflexivity))))).
Defined.

(** ** C3: budget 0 and isolated sources *)

(** C3 (counterexample): a node with a self-loop queried with budget 0
    returns the loop (in both directions) as edges, not an empty edge set. *)
Lemma C3_budget_zero_self_loop :
  ego_graph loop_graph 1 0 =
    Ok (mk_graph [mk_node 1 0 0] [mk_edge 1 1 80 []; mk_edge 1 1 80 []]) /\
  forall r, ego_graph loop_graph 1 0 = Ok r -> gedges r <> [].
Proof.
  split; [vm_compute; reflexivity|].
  intros r H; vm_compute in H; inversion H; subst r; discriminate.
Qed.

(** C3 (amended): the query returns exactly [{n}] with no edges when the
    source has no incident edge (any budget), and when the budget is 0, all
    edge lengths are positive and the source has no self-loop.  In general,
    for nonnegative lengths, a budget-0 query returns exactly the nodes
    joined to [n] by a chain of zero-length edges (of at most [|V|] edges,
    which every simple chain satisfies) and every edge of the graph between
    two of them; in particular it holds each self-loop at [n]. *)
Theorem C3_source_only g n b r :
  ego_graph g n b = Ok r ->
  (((forall e, In e (gedges g) -> eu e <> n /\ ev e <> n) \/
    (b == 0 /\ forall e, In e (gedges g) -> 0 < elen e /\ ~ (eu e = n /\ ev e = n))) ->
   (forall v, In v (node_ids r) <-> v = n) /\ gedges r = []) /\
  (nonneg_lengths g -> b == 0 ->
   (forall v, In v (node_ids r) <->
      In v (node_ids g) /\ exists k, (k <= List.length (gnodes g))%nat /\ zwalk g n v k) /\
   (forall e, In e (gedges r) <->
      In e (gedges g) /\ In (eu e) (node_ids r) /\ In (ev e) (node_ids r)) /\
   (forall e, In e (gedges g) -> eu e = n -> ev e = n -> In e (gedges r))).
Proof.
  intros H. pose proof (ego_graph_source _ _ _ _ H) as Hsrc.
  destruct (ego_graph_ok _ _ _ _ H) as (_ & Hn & He). split.
  - intros Hcase.
    assert (Hv : forall v, In v (node_ids r) <-> v = n).
    { intros v; split; [|intros ->; exact Hsrc].
      intros Hin. apply Hn in Hin as (_ & k & d & _ & Hw).
      destruct Hcase as [Hiso | (Hb & Hpos)].
      - eapply walk_isolated; [|exact Hw]. intros e Hin; apply (Hiso e Hin).
      - eapply walk_stuck; [| |exact Hw].
        + intros e Hin; pose proof (proj1 (Hpos e Hin)); lra.
        + intros e Hin; pose proof (proj1 (Hpos e Hin)); lra. }
    split; [exact Hv|]. apply no_member_nil. intros e Hin.
    apply He in Hin as (Hg & Hu & Hw). apply Hv in Hu; apply Hv in Hw.
    destruct Hcase as [Hiso | (_ & Hpos)].
    + exact (proj1 (Hiso e Hg) Hu).
    + exact (proj2 (Hpos e Hg) (conj Hu Hw)).
  - intros Hnn Hb.
    assert (Hv : forall v, In v (node_ids r) <->
                   In v (node_ids g) /\ exists k, (k <= List.length (gnodes g))%nat /\ zwalk g n v k).
    { intros v; rewrite Hn; split.
      - intros (Hg & k & d & Hk & Hw). split; [exact Hg|].
        exists k; split; [exact Hk | exact (proj1 (walk_zero g b n v k Hnn Hb) d Hw)].
      - intros (Hg & k & Hk & Hz). split; [exact Hg|].
        exists k, 0; split; [exact Hk | exact (proj2 (walk_zero g b n v k Hnn Hb) Hz)]. }
    split; [exact Hv|]. split; [exact He|].
    intros e Hin Hu Hw. apply He. rewrite Hu, Hw. auto.
Qed.

Lemma C3_source_only_witness :
  ((forall v, In v (node_ids (mk_graph [mk_node 1 0 0] [])) <-> v = 1%nat) /\
   gedges (mk_graph [mk_node 1 0 0] []) = []) /\
  (forall v, In v (node_ids (mk_graph [mk_node 1 0 0] [])) <->
     In v (node_ids chain) /\ exists k, (k <= List.length (gnodes chain))%nat /\ zwalk chain 1 v k).
Proof.
  destruct (C3_source_only chain 1 0 (mk_graph [mk_node 1 0 0] []) ltac:(vm_compute; reflexivity))
    as (H1 & H2).
  assert (Hnn : nonneg_lengths chain).
  { apply graph_from_ways_nonneg. intros w Hw; simpl in Hw.
    destruct Hw as [<- | [<- | [<- | []]]]; simpl; lra. }
  split.
  - apply H1. right. split; [reflexivity|].
    intros e He; simpl in He.
    repeat destruct He as [<- | He]; try destruct He;
      (split; [simpl; lra | simpl; intros (Hu & Hv); discriminate]).
  - exact (proj1 (H2 Hnn ltac:(reflexivity))).
Defined.

(** ** C4: monotonicity in the budget *)

(** C4: for budgets [0 <= b1 < b2], every node reached from [n] under [b1]
    is reached under [b2]. *)
Theorem C4_reached_monotone g n b1 b2 r1 r2 :
  0 <= b1 -> b1 < b2 ->
  ego_graph g n b1 = Ok r1 -> ego_graph g n b2 = Ok r2 ->
  forall v, In v (node_ids r1) -> In v (node_ids r2).
Proof.
  intros _ Hlt H1 H2 v Hv.
  destruct (ego_graph_ok _ _ _ _ H1) as (_ & Hn1 & _).
  destruct (ego_graph_ok _ _ _ _ H2) as (_ & Hn2 & _).
  apply Hn1 in Hv as (Hg & k & d & Hk & Hw).
  apply Hn2; split; [assumption|].
  exists k, d; split; [assumption|]. eapply walk_cutoff_mono; [|exact Hw]; lra.
Qed.

Lemma C4_reached_monotone_witness :
  In 2%nat (node_ids (mk_graph [mk_node 1 0 0; mk_node 2 100 0; mk_node 3 200 0] [])).
Proof.
  apply (C4_reached_monotone chain 1 150 250
           (mk_graph [mk_node 1 0 0; mk_node 2 100 0] [mk_edge 1 2 100 []; mk_edge 2 1 100 []])
           (mk_graph [mk_node 1 0 0; mk_node 2 100 0; mk_node 3 200 0]
                     [mk_edge 1 2 100 []; mk_edge 2 1 100 []; mk_edge 2 3 100 []; mk_edge 3 2 100 []]));
    [lra | lra | vm_compute; reflexivity | vm_compute; reflexivity | simpl; tauto].
Defined.

(** ** C5: symmetry on walk networks *)

(** C5 (counterexample): with the lengths added as floats, as networkx
    adds them, on the walk path 1 - 2 - 3 - 4 with lengths 104.631, 329.73
    and 765.639 and radius 1200, node 4 is reached from node 1 (the sum
    rounds to 1200.0) but node 1 is not reached from node 4 (the sum in the
    other order rounds to 1200.0000000000002). *)
#[warnings="-inexact-float"]
Lemma C5_float_rounding_asymmetry :
  fego_nodes [1%nat; 2%nat; 3%nat; 4%nat] float_path 1 1200%float = [1%nat; 2%nat; 3%nat; 4%nat] /\
  fego_nodes [1%nat; 2%nat; 3%nat; 4%nat] float_path 4 1200%float = [2%nat; 3%nat; 4%nat] /\
  fsssp float_path 1 2000%float 4 4 = Some 1200%float /\
  fsssp float_path 4 2000%float 4 1 = Some 1200.0000000000002%float.
Proof. repeat split; vm_compute; reflexivity. Qed.

(** C5 (amended): for the exact sums of the lengths, reachability is
    symmetric: on a walk network built from ways of nonnegative length, if
    [m] is reached from [n] within [b] then [n] is reached from [m] within
    [b].  The float sums networkx computes follow the search order and can
    round differently in the two directions, as above. *)
Theorem C5_reach_symmetric ns ws n m b r1 :
  (forall w, In w ws -> 0 <= wlen w) ->
  ego_graph (graph_from_ways ns ws) n b = Ok r1 ->
  In m (node_ids r1) ->
  exists r2, ego_graph (graph_from_ways ns ws) m b = Ok r2 /\ In n (node_ids r2).
Proof.
  intros Hw H Hm.
  set (g := graph_from_ways ns ws) in *.
  destruct (ego_graph_ok _ _ _ _ H) as (Hn & Hnodes & _).
  apply Hnodes in Hm as (Hmg & k & d & Hk & Hwalk).
  unfold ego_graph at 1. rewrite (proj2 (existsb_eqb_In m (node_ids g)) Hmg).
  eexists; split; [reflexivity|].
  destruct (ego_graph_ok g m b
              (induced g (filter (fun nd => is_some (single_source_dijkstra g m b (nid nd)))
                                 (gnodes g)))) as (_ & Hnodes2 & _).
  { unfold ego_graph. now rewrite (proj2 (existsb_eqb_In m (node_ids g)) Hmg). }
  apply Hnodes2; split; [assumption|].
  exists k, d; split; [assumption|].
  apply walk_reverse; [apply graph_from_ways_nonneg; assumption
                      | apply graph_from_ways_symmetric | assumption].
Qed.

Lemma C5_reach_symmetric_witness :
  exists r2, ego_graph chain 3 200 = Ok r2 /\ In 1%nat (node_ids r2).
Proof.
  apply (C5_reach_symmetric
           [mk_node 1 0 0; mk_node 2 100 0; mk_node 3 200 0; mk_node 4 300 0]
           [mk_way 1 2 100 []; mk_way 2 3 100 []; mk_way 3 4 100 []] 1 3 200
           (mk_graph [mk_node 1 0 0; mk_node 2 100 0; mk_node 3 200 0]
                     [mk_edge 1 2 100 []; mk_edge 2 1 100 []; mk_edge 2 3 100 []; mk_edge 3 2 100 []])).
  - intros w Hw; simpl in Hw.
    destruct Hw as [<- | [<- | [<- | []]]]; simpl; lra.
  - vm_compute; reflexivity.
  - simpl; tauto.
Defined.

(** ** C6: negative budgets *)

(** C6 (counterexample): a query with radius -1 does not fail: it returns
    the source node alone. *)
Lemma C6_negative_radius_accepted :
  ego_graph chain 2 (-1) = Ok (mk_graph [mk_node 2 100 0] []).
Proof. vm_compute; reflexivity. Qed.

(** C6 (amended): [network_analysis.calculate_accessibility] takes no budget
    (every POI is queried with the fixed radius 1200), and there is no
    [InvalidBudgetError].  The underlying ego-graph query accepts a negative
    radius without failing: for nonnegative lengths it returns the source
    alone, with its self-loops as only edges. *)
Theorem C6_negative_radius_source_only g n b :
  nonneg_lengths g -> b < 0 -> In n (node_ids g) ->
  exists r, ego_graph g n b = Ok r /\
    (forall v, In v (node_ids r) <-> v = n) /\
    (forall e, In e (gedges r) <-> In e (gedges g) /\ eu e = n /\ ev e = n).
Proof.
  intros Hnn Hb Hn.
  unfold ego_graph at 1. rewrite (proj2 (existsb_eqb_In n (node_ids g)) Hn).
  eexists; split; [reflexivity|].
  match goal with |- context [induced g ?k] =>
    assert (H : ego_graph g n b = Ok (induced g k))
      by (unfold ego_graph; now rewrite (proj2 (existsb_eqb_In n (node_ids g)) Hn)) end.
  pose proof (ego_graph_source _ _ _ _ H) as Hsrc.
  destruct (ego_graph_ok _ _ _ _ H) as (_ & Hnodes & Hedges).
  assert (Hv : forall v, In v (node_ids (induced g (filter (fun nd =>
                is_some (single_source_dijkstra g n b (nid nd))) (gnodes g)))) <-> v = n).
  { intros v; split; [|intros ->; exact Hsrc].
    intros Hin. apply Hnodes in Hin as (_ & k & d & _ & Hw).
    eapply walk_stuck; [exact Hnn | | exact Hw].
    intros e Hin; pose proof (Hnn e Hin); lra. }
  split; [exact Hv|].
  intros e; rewrite Hedges, !Hv; tauto.
Qed.

Lemma C6_negative_radius_source_only_witness :
  exists r, ego_graph chain 2 (-1) = Ok r /\
    (forall v, In v (node_ids r) <-> v = 2%nat) /\
    (forall e, In e (gedges r) <-> In e (gedges chain) /\ eu e = 2%nat /\ ev e = 2%nat).
Proof.
  apply C6_negative_radius_source_only.
  - apply graph_from_ways_nonneg. intros w Hw; simpl in Hw.
    destruct Hw as [<- | [<- | [<- | []]]]; simpl; lra.
  - lra.
  - simpl; tauto.
Defined.

(** ** The object store *)

Definition extends (h h' : heap) : Prop :=
  heap_wf h' /\ forall l x, hget h l = Some x -> hget h' l = Some x.

Lemma lookup_obj_In l os x : lookup_obj l os = Some x -> In (l, x) os.
Proof.
  induction os as [|[l' y] os IH]; simpl; [discriminate|].
  destruct (Nat.eqb_spec l l'); intros H; [inversion H; subst; auto | auto].
Qed.

Lemma hget_fresh h l x : heap_wf h -> hget h l = Some x -> l <> next_loc h.
Proof.
  intros Hwf H E. apply lookup_obj_In, Hwf in H. lia.
Qed.

Definition alloc_heap (h : heap) (x : graph) : heap :=
  mk_heap ((next_loc h, x) :: objs h) (S (next_loc h)).

Lemma alloc_unfold h x : alloc x h = (Ok (next_loc h), alloc_heap h x).
Proof. reflexivity. Qed.

Lemma alloc_extends h x : heap_wf h -> extends h (alloc_heap h x).
Proof.
  intros Hwf; split.
  - intros l y [E | Hin]; simpl; [inversion E; lia | apply Hwf in Hin; lia].
  - intros l y H. unfold hget; simpl.
    destruct (Nat.eqb_spec l (next_loc h)); [|exact H].
    exfalso; exact (hget_fresh _ _ _ Hwf H e).
Qed.

Lemma alloc_new h x : hget (alloc_heap h x) (next_loc h) = Some x.
Proof. unfold hget; simpl; now rewrite Nat.eqb_refl. Qed.

Lemma extends_refl h : heap_wf h -> extends h h.
Proof. split; auto. Qed.

Lemma extends_trans h1 h2 h3 : extends h1 h2 -> extends h2 h3 -> extends h1 h3.
Proof. intros [_ H12] [Hwf H23]; split; auto. Qed.

Lemma ego_graph_op_unfold G g n r h :
  hget h G = Some g ->
  ego_graph_op G n r h =
    match ego_graph g n r with
    | Ok s => (Ok (next_loc h), alloc_heap h s)
    | Err e => (Err e, h)
    end.
Proof.
  intros Hg. unfold ego_graph_op, bind, deref, raise_res. rewrite Hg.
  destruct (ego_graph g n r); reflexivity.
Qed.

Lemma nearest_nodes_op_unfold G g X Y h :
  hget h G = Some g -> nearest_nodes_op G X Y h = (nearest_nodes g X Y, h).
Proof. intros Hg. unfold nearest_nodes_op, bind, deref, raise_res. now rewrite Hg. Qed.

(** ** Python dict assignment *)

Lemma dict_set_In d k v k' v' :
  In (k', v') (dict_set d k v) -> In (k', v') d \/ (k', v') = (k, v).
Proof.
  induction d as [|[k0 v0] d IH]; simpl; [intros [E | []]; auto|].
  destruct (Nat.eqb_spec k k0) as [-> | _]; simpl.
  - intros [E | Hin]; [inversion E; subst; auto | auto].
  - intros [E | Hin]; [auto | destruct (IH Hin); auto].
Qed.

Lemma dict_set_keys d k v x :
  In x (map fst (dict_set d k v)) <-> In x (map fst d) \/ x = k.
Proof.
  induction d as [|[k0 v0] d IH]; simpl.
  { split; [intros [<- | []] | intros [[] | ->]]; auto. }
  destruct (Nat.eqb_spec k k0) as [-> | _]; simpl.
  - split; [tauto | intros [[H | H] | H]; subst; auto].
  - rewrite IH; tauto.
Qed.

Lemma dict_set_nodup d k v :
  NoDup (map fst d) -> NoDup (map fst (dict_set d k v)).
Proof.
  induction d as [|[k0 v0] d IH]; simpl; intros Hnd.
  - constructor; [intros [] | constructor].
  - inversion Hnd as [|? ? Hnot Hnd']; subst.
    destruct (Nat.eqb_spec k k0) as [-> | Hne]; simpl; [constructor; assumption|].
    constructor; [|now apply IH].
    rewrite dict_set_keys; intros [H | H]; [contradiction | congruence].
Qed.

Lemma dict_set_length d k v : (List.length (dict_set d k v) <= S (List.length d))%nat.
Proof.
  induction d as [|[k0 v0] d IH]; simpl; [lia|].
  destruct (Nat.eqb k k0); simpl; lia.
Qed.

(** ** The two loops of [network_analysis.calculate_accessibility] *)

Section Batch.
Variables (G : loc) (g : graph).

Definition nearest_of (p : NetworkAnalysis.poi) : result nat :=
  nearest_nodes g (snd p) (fst p).

Lemma convert_pois_spec h pois acc res h' :
  hget h G = Some g ->
  NetworkAnalysis.convert_pois G pois acc h = (res, h') ->
  h' = h /\
  (forall ns, res = Ok ns ->
     exists ks, ns = acc ++ ks /\ Forall2 (fun p k => nearest_of p = Ok k) pois ks) /\
  (forall p e, In p pois -> nearest_of p = Err e -> exists e', res = Err e').
Proof.
  intros Hg; revert acc res h'; induction pois as [|p pois IH]; simpl; intros acc res h' H.
  - inversion H; subst. split; [reflexivity|]. split; [|intros ? ? []].
    intros ns E; inversion E; subst. exists []; split; [now rewrite app_nil_r | constructor].
  - unfold bind at 1 in H. rewrite (nearest_nodes_op_unfold _ g _ _ _ Hg) in H.
    destruct (nearest_nodes g (snd p) (fst p)) as [k|e] eqn:Hk.
    + destruct (IH _ _ _ H) as (-> & Hok & Herr). split; [reflexivity|]. split.
      * intros ns E. destruct (Hok ns E) as (ks & -> & Hf).
        exists (k :: ks); split; [now rewrite <- app_assoc | constructor; assumption].
      * intros p' e [<- | Hin] He; [unfold nearest_of in He; congruence|].
        exact (Herr p' e Hin He).
    + inversion H; subst. split; [reflexivity|]. split; [discriminate|].
      intros; eexists; reflexivity.
Qed.

(** The entries of a service-area dict: each maps a node to a stored copy of
    its ego graph of radius 1200, never to [G] itself. *)
Definition areas_ok (h : heap) (sa : list (nat * loc)) : Prop :=
  forall k l, In (k, l) sa ->
    l <> G /\ exists s, hget h l = Some s /\ ego_graph g k 1200 = Ok s.

Lemma areas_ok_extends h h' sa : extends h h' -> areas_ok h sa -> areas_ok h' sa.
Proof.
  intros [_ Hext] Hok k l Hin. destruct (Hok k l Hin) as (Hne & s & Hs & He).
  split; [assumption|]. exists s; split; [apply Hext; assumption | assumption].
Qed.

Lemma service_area_loop_spec nodes sa h res h' :
  heap_wf h -> hget h G = Some g -> areas_ok h sa ->
  NetworkAnalysis.service_area_loop G nodes sa h = (res, h') ->
  extends h h' /\ hget h' G = Some g /\
  forall sa', res = Ok sa' ->
    areas_ok h' sa' /\
    (forall k, In k (map fst sa') <-> In k (map fst sa) \/ In k nodes) /\
    (NoDup (map fst sa) -> NoDup (map fst sa')) /\
    (List.length sa' <= List.length sa + List.length nodes)%nat.
Proof.
  revert sa h res h'; induction nodes as [|n nodes IH]; simpl; intros sa h res h' Hwf Hg Hok H.
  - inversion H; subst. split; [now apply extends_refl|]. split; [assumption|].
    intros sa' E; inversion E; subst. split; [assumption|].
    split; [intros k; simpl; tauto|]. split; [auto | lia].
  - unfold bind at 1 in H. rewrite (ego_graph_op_unfold _ g _ _ _ Hg) in H.
    destruct (ego_graph g n 1200) as [s|e] eqn:Hs.
    + pose proof (alloc_extends h s Hwf) as Hext.
      assert (Hne : next_loc h <> G) by (intros E; exact (hget_fresh _ _ _ Hwf Hg (eq_sym E))).
      assert (Hok' : areas_ok (alloc_heap h s) (dict_set sa n (next_loc h))).
      { intros k l Hin. apply dict_set_In in Hin as [Hin | E].
        - exact (areas_ok_extends _ _ _ Hext Hok k l Hin).
        - inversion E; subst. split; [assumption|].
          exists s; split; [apply alloc_new | assumption]. }
      destruct (IH _ _ _ _ (proj1 Hext) (proj2 Hext G g Hg) Hok' H) as (Hext2 & Hg2 & Hres).
      split; [exact (extends_trans _ _ _ Hext Hext2)|]. split; [assumption|].
      intros sa' E. destruct (Hres sa' E) as (Hok2 & Hkeys & Hnd & Hlen).
      split; [assumption|]. split.
      * intros k. rewrite Hkeys, dict_set_keys. simpl. intuition congruence.
      * split; [intros Hnd0; apply Hnd, dict_set_nodup, Hnd0|].
        pose proof (dict_set_length sa n (next_loc h)). lia.
    + inversion H; subst. split; [now apply extends_refl|]. split; [assumption|].
      discriminate.
Qed.

End Batch.

Lemma Forall2_in_r {A B} (R : A -> B -> Prop) l1 l2 y :
  Forall2 R l1 l2 -> In y l2 -> exists x, In x l1 /\ R x y.
Proof.
  induction 1 as [|x y' l1 l2 Hr Hf IH]; simpl; [intros []|].
  intros [<- | Hin]; [exists x; auto | destruct (IH Hin) as (x' & ? & ?); exists x'; auto].
Qed.

Lemma Forall2_in_l {A B} (R : A -> B -> Prop) l1 l2 x :
  Forall2 R l1 l2 -> In x l1 -> exists y, In y l2 /\ R x y.
Proof.
  induction 1 as [|x' y l1 l2 Hr Hf IH]; simpl; [intros []|].
  intros [<- | Hin]; [exists y; auto | destruct (IH Hin) as (y' & ? & ?); exists y'; auto].
Qed.

(** The whole batch: the graph object is left as it was, each entry is a
    fresh copy of the ego graph of its key, and the keys are the nearest
    nodes of the POIs; a failing POI makes the whole call fail. *)
Lemma calculate_accessibility_spec G g pois h res h' :
  heap_wf h -> hget h G = Some g ->
  NetworkAnalysis.calculate_accessibility G pois h = (res, h') ->
  extends h h' /\ hget h' G = Some g /\
  (forall sa, res = Ok sa ->
     areas_ok G g h' sa /\
     (forall k, In k (map fst sa) <-> exists p, In p pois /\ nearest_of g p = Ok k) /\
     NoDup (map fst sa) /\ (List.length sa <= List.length pois)%nat) /\
  (forall p e, In p pois -> nearest_of g p = Err e -> exists e', res = Err e').
Proof.
  intros Hwf Hg H. unfold NetworkAnalysis.calculate_accessibility, bind in H.
  destruct (NetworkAnalysis.convert_pois G pois [] h) as [r1 h1] eqn:Hc.
  destruct (convert_pois_spec G g _ _ _ _ _ Hg Hc) as (-> & Hok & Herr).
  destruct r1 as [ns|e].
  - destruct (Hok ns eq_refl) as (ks & -> & Hf). simpl in H.
    assert (Hnil : areas_ok G g h []) by (intros ? ? []).
    destruct (service_area_loop_spec G g _ _ _ _ _ Hwf Hg Hnil H) as (Hext & Hg' & Hres).
    split; [assumption|]. split; [assumption|]. split.
    + intros sa E. destruct (Hres sa E) as (Hok' & Hkeys & Hnd & Hlen).
      split; [assumption|]. split; [|split; [apply Hnd; constructor|]].
      * intros k; rewrite Hkeys; simpl; split.
        -- intros [[] | Hin]. exact (Forall2_in_r _ _ _ _ Hf Hin).
        -- intros (p & Hp & Hk). destruct (Forall2_in_l _ _ _ _ Hf Hp) as (k' & Hin & Hk').
           right; congruence.
      * rewrite (Forall2_length Hf). simpl in Hlen. lia.
    + intros p e Hp He. destruct (Herr p e Hp He) as (e' & E); discriminate.
  - inversion H; subst. split; [now apply extends_refl|]. split; [assumption|].
    split; [discriminate|]. intros; eexists; reflexivity.
Qed.

(** [ego_graph] reads the radius only through comparisons. *)
Lemma project_graph_op_ok proj g gp :
  AccessibilityAnalysis.project_graph_op proj g = Ok gp ->
  gp = AccessibilityAnalysis.project_graph proj g /\ gnodes g <> [] /\ gedges g <> [].
Proof.
  unfold AccessibilityAnalysis.project_graph_op.
  destruct (gnodes g), (gedges g); intros H; inversion H; subst; split; auto; split; discriminate.
Qed.

Lemma Qle_bool_proper x b b' : b == b' -> Qle_bool x b = Qle_bool x b'.
Proof.
  intros Hb. destruct (Qle_bool x b) eqn:E1, (Qle_bool x b') eqn:E2; auto.
  - apply Qle_bool_iff in E1. assert (~ x <= b') by (rewrite <- Qle_bool_iff; congruence). lra.
  - apply Qle_bool_iff in E2. assert (~ x <= b) by (rewrite <- Qle_bool_iff; congruence). lra.
Qed.

Lemma ego_graph_radius_proper g n b b' : b == b' -> ego_graph g n b = ego_graph g n b'.
Proof.
  intros Hb.
  assert (Hs : forall k v, sssp g n b k v = sssp g n b' k v).
  { induction k as [|k IH]; intros v; simpl; [reflexivity|]. unfold relax.
    rewrite IH. generalize (sssp g n b' k v). induction (gedges g) as [|e es IHes];
      intros acc; simpl; [reflexivity|].
    rewrite <- IHes. f_equal. unfold relax_edge. rewrite IH.
    destruct (Nat.eqb (ev e) v), (sssp g n b' k (eu e)); auto.
    now rewrite (Qle_bool_proper _ _ _ Hb). }
  unfold ego_graph, single_source_dijkstra.
  destruct (existsb (Nat.eqb n) (node_ids g)); [|reflexivity].
  do 2 f_equal. apply filter_ext. intros nd; now rewrite Hs.
Qed.

(** ** C7: a failing POI in a batch *)

(** C7 (counterexample): with a valid POI followed by one with a null
    latitude, the whole call raises [ValueError]; the valid POI, which on
    its own gets a service area, gets none, and no failure record exists. *)
Lemma C7_null_poi_aborts_batch :
  NetworkAnalysis.calculate_accessibility 0%nat pois_with_null chain_heap
    = (Err ValueError, chain_heap) /\
  fst (NetworkAnalysis.calculate_accessibility 0%nat [(Num 0, Num 1)] chain_heap)
    = Ok [(1%nat, 1%nat)].
Proof. split; vm_compute; reflexivity. Qed.

(** C7 (amended): if the nearest-node lookup of any POI of the batch fails,
    [calculate_accessibility] raises and returns no service area at all; its
    result, a dict from node to subgraph, has no place for failures. *)
Theorem C7_failure_aborts_batch G g pois h p e :
  heap_wf h -> hget h G = Some g -> In p pois ->
  nearest_nodes g (snd p) (fst p) = Err e ->
  exists e' h', NetworkAnalysis.calculate_accessibility G pois h = (Err e', h').
Proof.
  intros Hwf Hg Hp He.
  destruct (NetworkAnalysis.calculate_accessibility G pois h) as [res h'] eqn:H.
  destruct (calculate_accessibility_spec G g pois h res h' Hwf Hg H) as (_ & _ & _ & Herr).
  destruct (Herr p e Hp He) as (e' & ->). exists e', h'; reflexivity.
Qed.

Lemma C7_failure_aborts_batch_witness :
  exists e' h', NetworkAnalysis.calculate_accessibility 0%nat pois_with_null chain_heap = (Err e', h').
Proof.
  apply (C7_failure_aborts_batch 0%nat chain pois_with_null chain_heap (NaN, Num 2) ValueError).
  - intros l x [E | []]; inversion E; subst; simpl; lia.
  - reflexivity.
  - simpl; tauto.
  - reflexivity.
Defined.

(** ** C8: the shared graph is read only *)

(** C8: every ego-graph query of the batch, and the whole batch, leave the
    graph object [G] (nodes, edges and their attributes) and every other
    existing object as they were; each service area is a new object holding
    [ego_graph g k 1200], a function of the graph and the node alone. *)
Theorem C8_graph_unchanged G g pois h :
  heap_wf h -> hget h G = Some g ->
  (forall n r, hget (snd (ego_graph_op G n r h)) G = Some g) /\
  (forall res h', NetworkAnalysis.calculate_accessibility G pois h = (res, h') ->
     hget h' G = Some g /\ (forall l x, hget h l = Some x -> hget h' l = Some x) /\
     forall sa, res = Ok sa -> forall k l, In (k, l) sa ->
       l <> G /\ exists s, hget h' l = Some s /\ ego_graph g k 1200 = Ok s).
Proof.
  intros Hwf Hg. split.
  - intros n r. rewrite (ego_graph_op_unfold _ g _ _ _ Hg).
    destruct (ego_graph g n r) as [s|e]; simpl; [|assumption].
    exact (proj2 (alloc_extends h s Hwf) G g Hg).
  - intros res h' H.
    destruct (calculate_accessibility_spec G g pois h res h' Hwf Hg H)
      as ((_ & Hext) & Hg' & Hres & _).
    split; [assumption|]. split; [assumption|].
    intros sa E. exact (proj1 (Hres sa E)).
Qed.

Lemma C8_graph_unchanged_witness :
  hget (snd (NetworkAnalysis.calculate_accessibility 0%nat two_pois chain_heap)) 0%nat = Some chain.
Proof.
  destruct (C8_graph_unchanged 0%nat chain two_pois chain_heap) as (_ & H).
  - intros l x [E | []]; inversion E; subst; simpl; lia.
  - reflexivity.
  - destruct (NetworkAnalysis.calculate_accessibility 0%nat two_pois chain_heap) as [res h'] eqn:E.
    exact (proj1 (H res h' eq_refl)).
Defined.

(** ** C9: service areas are keyed by node *)

(** C9: the batch returns a dict whose keys are exactly the nearest nodes of
    the POIs, each once; POIs with the same nearest node share one entry, so
    there are at most as many entries as POIs, and on the chain two POIs next
    to node 1 give a single entry. *)
Theorem C9_keyed_by_nearest_node G g pois h sa h' :
  heap_wf h -> hget h G = Some g ->
  NetworkAnalysis.calculate_accessibility G pois h = (Ok sa, h') ->
  (forall k, In k (map fst sa) <-> exists p, In p pois /\ nearest_nodes g (snd p) (fst p) = Ok k) /\
  NoDup (map fst sa) /\ (List.length sa <= List.length pois)%nat /\
  fst (NetworkAnalysis.calculate_accessibility 0%nat two_pois chain_heap) = Ok [(1%nat, 2%nat)] /\
  List.length two_pois = 2%nat.
Proof.
  intros Hwf Hg H.
  destruct (calculate_accessibility_spec G g pois h _ h' Hwf Hg H) as (_ & _ & Hres & _).
  destruct (Hres sa eq_refl) as (_ & Hkeys & Hnd & Hlen).
  split; [exact Hkeys|]. split; [exact Hnd|]. split; [exact Hlen|].
  split; vm_compute; reflexivity.
Qed.

Lemma C9_keyed_by_nearest_node_witness :
  NoDup (map fst [(1%nat, 2%nat)]) /\ (List.length [(1%nat, 2%nat)] <= List.length two_pois)%nat.
Proof.
  destruct (C9_keyed_by_nearest_node 0%nat chain two_pois chain_heap [(1%nat, 2%nat)]
              (mk_heap [(2%nat, chain); (1%nat, chain); (0%nat, chain)] 3%nat))
    as (_ & Hnd & Hlen & _).
  - intros l x [E | []]; inversion E; subst; simpl; lia.
  - reflexivity.
  - vm_compute; reflexivity.
  - split; assumption.
Defined.

(** ** C10: the radii are fixed constants *)

(** C10: neither operation takes a budget.  [accessibility_analysis] always
    queries with [max_distance * 1000 = 5 * 0.25 * 1000 = 1250] metres;
    [network_analysis] queries every POI with 1200 metres; and the two radii
    give different answers to the same query on a graph with a node at
    walking distance 1225. *)
Theorem C10_fixed_radii :
  AccessibilityAnalysis.max_distance * 1000 == 1250 /\
  (forall proj g0 dir s, AccessibilityAnalysis.calculate_accessibility proj g0 dir = Ok s ->
     exists c sub, ego_graph (AccessibilityAnalysis.project_graph proj g0) c 1250 = Ok sub /\
       AccessibilityAnalysis.nodes_in_range s = List.length (gnodes sub) /\
       AccessibilityAnalysis.edges_in_range s = List.length (gedges sub)) /\
  (forall G g pois h res h', heap_wf h -> hget h G = Some g ->
     NetworkAnalysis.calculate_accessibility G pois h = (res, h') ->
     forall sa, res = Ok sa -> forall k l, In (k, l) sa ->
       exists s, hget h' l = Some s /\ ego_graph g k 1200 = Ok s) /\
  ego_ids (ego_graph line_1225 1 1200) = Some [1%nat; 2%nat] /\
  ego_ids (ego_graph line_1225 1 1250) = Some [1%nat; 2%nat; 3%nat].
Proof.
  assert (Hr : AccessibilityAnalysis.max_distance * 1000 == 1250) by reflexivity.
  split; [exact Hr|]. split; [|split; [|split; vm_compute; reflexivity]].
  - intros proj g0 dir s H. unfold AccessibilityAnalysis.calculate_accessibility in H.
    destruct (AccessibilityAnalysis.project_graph_op proj g0) as [gp|e] eqn:Hp; [|discriminate].
    destruct (project_graph_op_ok _ _ _ Hp) as (-> & _).
    destruct (nearest_nodes _ _ _) as [c|e]; [|discriminate].
    rewrite (ego_graph_radius_proper _ _ _ _ Hr) in H.
    destruct (ego_graph _ c 1250) as [sub|e] eqn:E; [|discriminate].
    destruct (gedges sub) eqn:Es; [discriminate|]. destruct dir; [|discriminate].
    inversion H; subst. exists c, sub; rewrite Es; auto.
  - intros G g pois h res h' Hwf Hg H sa E k l Hin.
    destruct (calculate_accessibility_spec G g pois h res h' Hwf Hg H) as (_ & _ & Hres & _).
    exact (proj2 (proj1 (Hres sa E) k l Hin)).
Qed.

Lemma C10_fixed_radii_witness :
  exists c sub,
    ego_graph (AccessibilityAnalysis.project_graph (fun x y => (x, y)) chain) c 1250 = Ok sub /\
    4%nat = List.length (gnodes sub) /\ 6%nat = List.length (gedges sub).
Proof.
  destruct C10_fixed_radii as (_ & H & _).
  apply (H (fun x y => (x, y)) chain true (AccessibilityAnalysis.mk_summary None 4 6)).
  vm_compute; reflexivity.
Defined.

(** ** Further properties of the embedded code *)

(** *** [nearest_nodes] *)

Lemma fold_closer_spec x y rest best :
  In (fold_left (closer x y) rest best) (best :: rest) /\
  sqdist (fold_left (closer x y) rest best) x y <= sqdist best x y /\
  forall c, In c rest -> sqdist (fold_left (closer x y) rest best) x y <= sqdist c x y.
Proof.
  revert best; induction rest as [|c rest IH]; intros best; cbn [fold_left].
  - split; [left; reflexivity|]. split; [apply Qle_refl | intros _ []].
  - destruct (IH (closer x y best c)) as (Hin & Hle & Hall).
    assert (Hb : sqdist (closer x y best c) x y <= sqdist best x y /\
                 sqdist (closer x y best c) x y <= sqdist c x y).
    { unfold closer. destruct (Qle_bool (sqdist best x y) (sqdist c x y)) eqn:E.
      - apply Qle_bool_iff in E; split; [apply Qle_refl | exact E].
      - assert (~ sqdist best x y <= sqdist c x y) by (rewrite <- Qle_bool_iff; congruence).
        split; [lra | apply Qle_refl]. }
    split; [|split].
    + destruct Hin as [E | Hin]; [|right; right; exact Hin].
      rewrite <- E. unfold closer. destruct (Qle_bool _ _); [left | right; left]; reflexivity.
    + lra.
    + intros c' [<- | Hc]; [lra | exact (Hall c' Hc)].
Qed.

(** [nearest_nodes] fails only with [ValueError], exactly when a coordinate
    is not finite or the graph has no node; otherwise it returns the id of a
    node of the graph at minimum planar distance from the query point. *)
Lemma nearest_nodes_spec g X Y :
  (forall e, nearest_nodes g X Y = Err e <->
     e = ValueError /\ (is_finite X = false \/ is_finite Y = false \/ gnodes g = [])) /\
  (forall k, nearest_nodes g X Y = Ok k ->
     forall x y, X = Num x -> Y = Num y ->
     exists nd, In nd (gnodes g) /\ nid nd = k /\
       forall nd', In nd' (gnodes g) -> sqdist nd x y <= sqdist nd' x y).
Proof.
  split.
  - intros e. unfold nearest_nodes.
    destruct X as [x| | |], Y as [y| | |]; try destruct (gnodes g) as [|nd rest]; split;
      cbn [is_finite]; try (intros H; inversion H; subst; tauto);
      try (intros (-> & [H | [H | H]]); first [discriminate | reflexivity]).
  - intros k H x y -> ->. unfold nearest_nodes in H.
    destruct (gnodes g) as [|nd rest]; [discriminate|]. inversion H; subst k.
    destruct (fold_closer_spec x y rest nd) as (Hin & Hle & Hall).
    eexists; split; [exact Hin|]. split; [reflexivity|].
    intros nd' [<- | Hnd']; [exact Hle | exact (Hall nd' Hnd')].
Qed.

Lemma nearest_nodes_member g X Y k : nearest_nodes g X Y = Ok k -> In k (node_ids g).
Proof.
  unfold nearest_nodes, node_ids. destruct X, Y; try discriminate.
  destruct (gnodes g) as [|nd rest] eqn:Hg; [discriminate|]. intros H; inversion H; subst.
  apply in_map. destruct (fold_closer_spec q q0 rest nd) as (Hin & _). exact Hin.
Qed.

(** *** How the batch of [network_analysis.calculate_accessibility] fails *)

Lemma service_area_loop_members G g nodes sa h :
  heap_wf h -> hget h G = Some g -> Forall (fun k => In k (node_ids g)) nodes ->
  exists sa' h', NetworkAnalysis.service_area_loop G nodes sa h = (Ok sa', h').
Proof.
  revert sa h; induction nodes as [|n nodes IH]; simpl; intros sa h Hwf Hg Hall.
  - eexists; eexists; reflexivity.
  - inversion Hall as [|? ? Hn Hrest]; subst.
    unfold bind at 1. rewrite (ego_graph_op_unfold _ g _ _ _ Hg).
    unfold ego_graph at 1. rewrite (proj2 (existsb_eqb_In n (node_ids g)) Hn).
    pose proof (alloc_extends h
      (induced g (filter (fun nd => is_some (single_source_dijkstra g n 1200 (nid nd)))
                         (gnodes g))) Hwf) as (Hwf' & Hext).
    apply IH; [exact Hwf' | exact (Hext G g Hg) | exact Hrest].
Qed.

Lemma convert_pois_total G g pois acc h :
  hget h G = Some g -> gnodes g <> [] ->
  (forall p, In p pois -> exists x y, p = (Num x, Num y)) ->
  exists ks, NetworkAnalysis.convert_pois G pois acc h = (Ok (acc ++ ks), h) /\
             Forall (fun k => In k (node_ids g)) ks.
Proof.
  intros Hg Hne; revert acc; induction pois as [|p pois IH]; simpl; intros acc Hp.
  - exists []; rewrite app_nil_r; split; [reflexivity | constructor].
  - unfold bind at 1. rewrite (nearest_nodes_op_unfold _ g _ _ _ Hg).
    destruct (Hp p (or_introl eq_refl)) as (x & y & ->); simpl.
    unfold nearest_nodes. destruct (gnodes g) as [|nd rest] eqn:Hgn; [congruence|].
    assert (Hk : In (nid (fold_left (closer y x) rest nd)) (node_ids g))
      by (apply (nearest_nodes_member g (Num y) (Num x)); unfold nearest_nodes; now rewrite Hgn).
    destruct (IH (acc ++ [nid (fold_left (closer y x) rest nd)])) as (ks & Hc & Hall);
      [intros p' Hp'; apply Hp; right; exact Hp'|].
    eexists; split; [rewrite Hc, <- app_assoc; reflexivity | constructor; eassumption].
Qed.

(** X2: on a graph with nonnegative lengths the batch never raises
    [NodeNotFound]: it fails only with [ValueError], and only when some POI
    has a coordinate that is not a finite number (null or infinite) or the
    graph has no node; when the graph has nodes and every POI has two finite
    coordinates it returns its dict. *)
Theorem calculate_accessibility_errors G g pois h :
  heap_wf h -> hget h G = Some g -> nonneg_lengths g ->
  (forall e h', NetworkAnalysis.calculate_accessibility G pois h = (Err e, h') ->
     e = ValueError /\ exists p, In p pois /\
       (is_finite (fst p) = false \/ is_finite (snd p) = false \/ gnodes g = [])) /\
  (gnodes g <> [] -> (forall p, In p pois -> exists x y, p = (Num x, Num y)) ->
     exists sa h', NetworkAnalysis.calculate_accessibility G pois h = (Ok sa, h')).
Proof.
  intros Hwf Hg _. split.
  - intros e h' H. unfold NetworkAnalysis.calculate_accessibility, bind in H.
    destruct (NetworkAnalysis.convert_pois G pois [] h) as [r1 h1] eqn:Hc.
    destruct (convert_pois_spec G g _ _ _ _ _ Hg Hc) as (-> & Hok & _).
    destruct r1 as [ns|e1].
    + exfalso. destruct (Hok ns eq_refl) as (ks & -> & Hf).
      assert (Hall : Forall (fun k => In k (node_ids g)) ks).
      { apply Forall_forall. intros k Hk.
        destruct (Forall2_in_r _ _ _ _ Hf Hk) as (p & _ & Hp).
        exact (nearest_nodes_member _ _ _ _ Hp). }
      destruct (service_area_loop_members G g ks [] h Hwf Hg Hall) as (sa & h2 & E).
      simpl in H. congruence.
    + injection H as He1 _; subst e1.
      (* the error is the first failing POI's *)
      revert Hc. generalize (@nil nat) as acc. clear Hok.
      induction pois as [|p pois IH]; simpl; intros acc Hc; [discriminate|].
      unfold bind at 1 in Hc. rewrite (nearest_nodes_op_unfold _ g _ _ _ Hg) in Hc.
      destruct (nearest_nodes g (snd p) (fst p)) as [k|e'] eqn:Hn.
      * destruct (IH _ Hc) as (-> & p' & Hp' & Hnan). split; [reflexivity|].
        exists p'; split; [right; exact Hp' | exact Hnan].
      * inversion Hc; subst e'.
        destruct (proj1 (proj1 (nearest_nodes_spec g (snd p) (fst p)) e) Hn) as (-> & Hw).
        split; [reflexivity|]. exists p; split; [left; reflexivity | tauto].
  - intros Hne Hp.
    unfold NetworkAnalysis.calculate_accessibility, bind.
    destruct (convert_pois_total G g pois [] h Hg Hne Hp) as (ks & -> & Hall).
    exact (service_area_loop_members G g ks [] h Hwf Hg Hall).
Qed.

Lemma calculate_accessibility_errors_witness :
  exists sa h', NetworkAnalysis.calculate_accessibility 0%nat two_pois chain_heap = (Ok sa, h').
Proof.
  apply (proj2 (calculate_accessibility_errors 0%nat chain two_pois chain_heap
                  ltac:(intros l x [E | []]; inversion E; subst; simpl; lia) eq_refl
                  ltac:(apply graph_from_ways_nonneg; intros w Hw; simpl in Hw;
                        destruct Hw as [<- | [<- | [<- | []]]]; simpl; lra))).
  - discriminate.
  - intros p [<- | [<- | []]]; eexists; eexists; reflexivity.
Defined.

(** X3: every service area of the batch is a subgraph of [G] that holds its
    own key node: its nodes and edges are nodes and edges of [G]. *)
Theorem service_areas_are_subgraphs G g pois h sa h' :
  heap_wf h -> hget h G = Some g ->
  NetworkAnalysis.calculate_accessibility G pois h = (Ok sa, h') ->
  forall k l, In (k, l) sa -> exists s, hget h' l = Some s /\
    In k (node_ids s) /\
    (forall v, In v (node_ids s) -> In v (node_ids g)) /\
    (forall e, In e (gedges s) -> In e (gedges g)).
Proof.
  intros Hwf Hg H k l Hin.
  destruct (calculate_accessibility_spec G g pois h _ h' Hwf Hg H) as (_ & _ & Hres & _).
  destruct (proj1 (Hres sa eq_refl) k l Hin) as (_ & s & Hs & He).
  exists s; split; [exact Hs|]. split; [exact (ego_graph_source _ _ _ _ He)|].
  destruct (ego_graph_ok _ _ _ _ He) as (_ & Hn & Hed). split.
  - intros v Hv; apply Hn in Hv; tauto.
  - intros e He'; apply Hed in He'; tauto.
Qed.

Lemma service_areas_are_subgraphs_witness :
  exists s, hget (mk_heap [(2%nat, chain); (1%nat, chain); (0%nat, chain)] 3%nat) 2%nat = Some s /\
    In 1%nat (node_ids s) /\
    (forall v, In v (node_ids s) -> In v (node_ids chain)) /\
    (forall e, In e (gedges s) -> In e (gedges chain)).
Proof.
  apply (service_areas_are_subgraphs 0%nat chain two_pois chain_heap [(1%nat, 2%nat)]).
  - intros l x [E | []]; inversion E; subst; simpl; lia.
  - reflexivity.
  - vm_compute; reflexivity.
  - left; reflexivity.
Defined.

(** *** Key order of the service-area dict *)

(** The keys of a sequence of dict assignments: each key once, in the order
    of its first assignment. *)
Definition first_occurrences_from (seen : list nat) (l : list nat) : list nat :=
  fold_left (fun acc k => if existsb (Nat.eqb k) acc then acc else acc ++ [k]) l seen.

Definition first_occurrences (l : list nat) : list nat := first_occurrences_from [] l.

Lemma dict_set_keys_eq d k v :
  map fst (dict_set d k v) =
  if existsb (Nat.eqb k) (map fst d) then map fst d else map fst d ++ [k].
Proof.
  induction d as [|[k0 v0] d IH]; simpl; [reflexivity|].
  destruct (Nat.eqb_spec k k0) as [-> | Hne]; simpl; [reflexivity|].
  rewrite IH. destruct (existsb (Nat.eqb k) (map fst d)); reflexivity.
Qed.

Lemma service_area_loop_keys G g nodes sa h sa' h' :
  heap_wf h -> hget h G = Some g ->
  NetworkAnalysis.service_area_loop G nodes sa h = (Ok sa', h') ->
  map fst sa' = first_occurrences_from (map fst sa) nodes.
Proof.
  revert sa h; induction nodes as [|n nodes IH]; simpl; intros sa h Hwf Hg H.
  - inversion H; reflexivity.
  - unfold bind at 1 in H. rewrite (ego_graph_op_unfold _ g _ _ _ Hg) in H.
    destruct (ego_graph g n 1200) as [s|e]; [|discriminate].
    destruct (alloc_extends h s Hwf) as (Hwf' & Hext).
    rewrite (IH _ _ Hwf' (Hext G g Hg) H), dict_set_keys_eq. reflexivity.
Qed.

(** X4: the dict returned by the batch lists each nearest node once, in the
    order in which the POIs first reach it. *)
Theorem service_area_keys_order G g pois h sa h' :
  heap_wf h -> hget h G = Some g ->
  NetworkAnalysis.calculate_accessibility G pois h = (Ok sa, h') ->
  exists ks, Forall2 (fun p k => nearest_nodes g (snd p) (fst p) = Ok k) pois ks /\
             map fst sa = first_occurrences ks.
Proof.
  intros Hwf Hg H. unfold NetworkAnalysis.calculate_accessibility, bind in H.
  destruct (NetworkAnalysis.convert_pois G pois [] h) as [r1 h1] eqn:Hc.
  destruct (convert_pois_spec G g _ _ _ _ _ Hg Hc) as (-> & Hok & _).
  destruct r1 as [ns|e]; [|discriminate].
  destruct (Hok ns eq_refl) as (ks & -> & Hf). exists ks; split; [exact Hf|].
  exact (service_area_loop_keys G g ks [] h sa h' Hwf Hg H).
Qed.

Lemma service_area_keys_order_witness :
  exists ks, Forall2 (fun p k => nearest_nodes chain (snd p) (fst p) = Ok k)
               [(Num 0, Num 210); (Num 0, Num 1); (Num 0, Num 240)] ks /\
             map fst [(3%nat, 3%nat); (1%nat, 2%nat)] = first_occurrences ks.
Proof.
  apply (service_area_keys_order 0%nat chain [(Num 0, Num 210); (Num 0, Num 1); (Num 0, Num 240)]
           chain_heap [(3%nat, 3%nat); (1%nat, 2%nat)]
           (mk_heap [(3%nat, chain); (2%nat, chain); (1%nat, chain); (0%nat, chain)] 4%nat)).
  - intros l x [E | []]; inversion E; subst; simpl; lia.
  - reflexivity.
  - vm_compute; reflexivity.
Defined.

(** *** [accessibility_analysis.calculate_accessibility] *)

Lemma project_graph_ids proj g :
  node_ids (AccessibilityAnalysis.project_graph proj g) = node_ids g.
Proof.
  unfold node_ids, AccessibilityAnalysis.project_graph; simpl.
  rewrite map_map. reflexivity.
Qed.




(** *** Walk networks count each street twice *)

Lemma induced_walk_edges_even ws keep :
  Nat.Even (List.length
    (filter (fun e => existsb (Nat.eqb (eu e)) (map nid keep) && existsb (Nat.eqb (ev e)) (map nid keep))
            (flat_map way_edges ws))).
Proof.
  induction ws as [|w ws IH]; simpl; [exists O; reflexivity|].
  rewrite andb_comm with (b1 := existsb (Nat.eqb (wv w)) (map nid keep)).
  destruct (existsb (Nat.eqb (wu w)) (map nid keep) && existsb (Nat.eqb (wv w)) (map nid keep));
    simpl; [|exact IH].
  destruct IH as (m & Hm). exists (S m). lia.
Qed.

(** X6: on a walk network every edge comes with its reverse, so the
    subgraph of a query, and [edges_in_range] of the analysis, always hold an
    even number of edges: each street segment is counted twice. *)
Theorem walk_network_edges_even ns ws :
  (forall n b r, ego_graph (graph_from_ways ns ws) n b = Ok r -> Nat.Even (List.length (gedges r))) /\
  (forall proj dir s, AccessibilityAnalysis.calculate_accessibility proj (graph_from_ways ns ws) dir = Ok s ->
     Nat.Even (AccessibilityAnalysis.edges_in_range s)).
Proof.
  split.
  - intros n b r H. unfold ego_graph in H.
    destruct (existsb _ _); [|discriminate]. inversion H; subst r.
    apply induced_walk_edges_even.
  - intros proj dir s H. unfold AccessibilityAnalysis.calculate_accessibility in H.
    destruct (AccessibilityAnalysis.project_graph_op _ _) as [gp|e] eqn:Hp; [|discriminate].
    destruct (project_graph_op_ok _ _ _ Hp) as (-> & _).
    destruct (nearest_nodes _ _ _) as [c|e]; [|discriminate].
    destruct (ego_graph _ c _) as [sub|e] eqn:E; [|discriminate].
    assert (Hev : Nat.Even (List.length (gedges sub))).
    { unfold ego_graph in E. destruct (existsb _ _); [|discriminate].
      inversion E; subst sub. apply induced_walk_edges_even. }
    destruct (gedges sub); [discriminate|]. destruct dir; [|discriminate].
    inversion H; subst s. exact Hev.
Qed.

Lemma walk_network_edges_even_witness :
  Nat.Even (AccessibilityAnalysis.edges_in_range (AccessibilityAnalysis.mk_summary None 4 6)).
Proof.
  apply (proj2 (walk_network_edges_even
           [mk_node 1 0 0; mk_node 2 100 0; mk_node 3 200 0; mk_node 4 300 0]
           [mk_way 1 2 100 []; mk_way 2 3 100 []; mk_way 3 4 100 []]) (fun x y => (x, y)) true).
  vm_compute; reflexivity.
Defined.

(** X7: a query with a larger radius returns a larger subgraph: every node
    and every edge of the result for [b1] is in the result for [b2 >= b1]
    (so each 1200 m service area lies inside the 1250 m one of its node). *)
Theorem ego_graph_radius_mono g n b1 b2 r1 r2 :
  b1 <= b2 -> ego_graph g n b1 = Ok r1 -> ego_graph g n b2 = Ok r2 ->
  (forall v, In v (node_ids r1) -> In v (node_ids r2)) /\
  (forall e, In e (gedges r1) -> In e (gedges r2)).
Proof.
  intros Hb H1 H2.
  destruct (ego_graph_ok _ _ _ _ H1) as (_ & Hn1 & He1).
  destruct (ego_graph_ok _ _ _ _ H2) as (_ & Hn2 & He2).
  assert (Hv : forall v, In v (node_ids r1) -> In v (node_ids r2)).
  { intros v Hv. apply Hn1 in Hv as (Hg & k & d & Hk & Hw). apply Hn2; split; [assumption|].
    exists k, d; split; [assumption|]. eapply walk_cutoff_mono; [exact Hb | exact Hw]. }
  split; [exact Hv|]. intros e He. apply He1 in He as (Hg & Hu & Hw).
  apply He2; auto.
Qed.

Lemma ego_graph_radius_mono_witness :
  (forall v, In v (node_ids (mk_graph [mk_node 1 0 0; mk_node 2 600 0] [])) ->
             In v (node_ids (mk_graph [mk_node 1 0 0; mk_node 2 600 0; mk_node 3 1225 0] []))) /\
  (forall e, In e [mk_edge 1 2 600 []; mk_edge 2 1 600 []] ->
             In e [mk_edge 1 2 600 []; mk_edge 2 1 600 []; mk_edge 2 3 625 []; mk_edge 3 2 625 []]).
Proof.
  apply (ego_graph_radius_mono line_1225 1 1200 1250
           (mk_graph [mk_node 1 0 0; mk_node 2 600 0] [mk_edge 1 2 600 []; mk_edge 2 1 600 []])
           (mk_graph [mk_node 1 0 0; mk_node 2 600 0; mk_node 3 1225 0]
                     [mk_edge 1 2 600 []; mk_edge 2 1 600 []; mk_edge 2 3 625 []; mk_edge 3 2 625 []]));
    [lra | vm_compute; reflexivity | vm_compute; reflexivity].
Defined.

